(** * Barrier.js: a counting barrier for callback-driven code

    Shallow embedding of [src/barrier.js].  A [Barrier] object has two mutable
    fields, the counter [value] and the array [waiting]; its methods
    [aquire], [release], [wait] and [isSet] are embedded as computations in a
    small monad that threads the object, collects the observable events
    (enqueueing and invocation of continuations) and carries JavaScript's
    exceptions.

    Numbers are modelled by [Z]: the claims are about integer arguments.
    JavaScript's comparisons of integers are exact; its additions and
    subtractions are exact as long as operands and result are safe integers
    ([safe_integer], up to 2^53 - 1), and the theorems that state the result
    of an addition or subtraction of the counter carry that bound.

    Continuations are JavaScript functions that may call back into the
    barrier.  They are modelled by name: an environment [code] gives, for a
    function name and its arguments, the sequence of barrier calls its body
    performs.  Since a body may register or release its own function again,
    execution is bounded by fuel. *)

From Stdlib Require Import ZArith List String Bool Lia.
Import ListNotations.
Local Open Scope Z_scope.

(** ** Data model *)

(** [Number.MAX_SAFE_INTEGER], 2^53 - 1: up to it, in absolute value, the
    integers are JavaScript numbers and their sums and differences are not
    rounded. *)
Definition MAX_SAFE_INTEGER : Z := 9007199254740991.

Definition safe_integer (z : Z) : Prop :=
  - MAX_SAFE_INTEGER <= z <= MAX_SAFE_INTEGER.

(** Arguments handed to [wait] after the callback. *)
Inductive jsval : Type :=
| VUndefined
| VNum (z : Z)
| VStr (s : string).

Definition fname := string.

(** An entry of [this.waiting]: the object literal [{args: args, callback: fn}]
    of lines 173-176. *)
Record waiter : Type := mkWaiter {
  args : list jsval;
  callback : fname
}.

(** The object built by the constructor: [this.value], [this.waiting]. *)
Record Barrier : Type := mkBarrier {
  value : Z;
  waiting : list waiter
}.

(** The exceptions: [new RangeError(msg)] and [new Error(msg)] are thrown by
    the source; [TypeError] is what the runtime throws on reading a property
    of [undefined]. *)
Inductive error : Type :=
| RangeError (msg : string)
| Error (msg : string)
| TypeError (msg : string).

(** What a caller can observe of the continuations: [Queued w] when [wait]
    puts [w] on the array, [Called w] when [wait] runs it at once,
    [Drained w] when [release] takes [w] off the array and runs it. *)
Inductive event : Type :=
| Queued (w : waiter)
| Called (w : waiter)
| Drained (w : waiter).

(** ** The monad: state, events, exceptions, fuel *)

Inductive completion (A : Type) : Type :=
| Normal (a : A)
| Throw (e : error)
| Diverge.
Arguments Normal {A} a.
Arguments Throw {A} e.
Arguments Diverge {A}.

Record result (A : Type) : Type := mkResult {
  outcome : completion A;
  after : Barrier;
  events : list event
}.
Arguments mkResult {A} _ _ _.
Arguments outcome {A} _.
Arguments after {A} _.
Arguments events {A} _.

Definition M (A : Type) : Type := Barrier -> result A.

Definition ret {A} (a : A) : M A := fun b => mkResult (Normal a) b [].

Definition throw {A} (e : error) : M A := fun b => mkResult (Throw e) b [].

Definition diverge {A} : M A := fun b => mkResult Diverge b [].

Definition bind {A B} (m : M A) (f : A -> M B) : M B := fun b =>
  let r := m b in
  match outcome r with
  | Normal a =>
      let r' := f a (after r) in
      mkResult (outcome r') (after r') (events r ++ events r')
  | Throw e => mkResult (Throw e) (after r) (events r)
  | Diverge => mkResult Diverge (after r) (events r)
  end.

Notation "x <- m ;; k" := (bind m (fun x => k))
  (at level 61, m at next level, right associativity).
Notation "m ;; k" := (bind m (fun _ => k))
  (at level 61, right associativity).

(** [try { m } catch (e) {}]: an exception of [m] is swallowed. *)
Definition try_catch (m : M unit) : M unit := fun b =>
  let r := m b in
  match outcome r with
  | Throw _ => mkResult (Normal tt) (after r) (events r)
  | _ => r
  end.

Definition get_value : M Z := fun b => ret (value b) b.

Definition set_value (v : Z) : M unit := fun b =>
  mkResult (Normal tt) (mkBarrier v (waiting b)) [].

Definition emit (ev : event) : M unit := fun b => mkResult (Normal tt) b [ev].

(** [this.waiting.unshift(w)]: the new entry goes to index 0. *)
Definition unshift (w : waiter) : M unit := fun b =>
  mkResult (Normal tt) (mkBarrier (value b) (w :: waiting b)) [].

(** [this.waiting.pop()]: removes and returns the entry at the last index
    ([undefined] on an empty array, which the loop guard excludes). *)
Definition pop : M (option waiter) := fun b =>
  match waiting b with
  | [] => ret None b
  | w0 :: ws =>
      mkResult (Normal (Some (last ws w0)))
               (mkBarrier (value b) (removelast (w0 :: ws))) []
  end.

(** ** The methods of [Barrier.prototype] *)

(** Lines 94-99.  [None] is the omitted argument: [undefined < 0] is false and
    [undefined || 0] is [0]; for a number [n || 0] is [n], also at [n = 0].
    The four [bind] calls of lines 102-105 drop their results and change
    nothing. *)
Definition Barrier_new (n : option Z) : completion Barrier :=
  match n with
  | None => Normal (mkBarrier 0 [])
  | Some n =>
      if n <? 0 then Throw (RangeError "Invalid Argument")
      else Normal (mkBarrier (if n =? 0 then 0 else n) [])
  end.

(** Lines 112-114: [return this.value > 0]. *)
Definition isSet : M bool := fun b => ret (0 <? value b) b.

(** Lines 125-134. *)
Definition aquire (n : option Z) : M Z :=
  (match n with
   | None => v <- get_value ;; set_value (v + 1)
   | Some n =>
       if 0 <=? n then v <- get_value ;; set_value (v + n)
       else throw (RangeError "Invalid Argument")
   end) ;;
  get_value.

(** Lines 145-154, the counting part of [release].  The guard of line 150 is
    written [this.value >= n > 0], which JavaScript reads as
    [(this.value >= n) > 0]: the boolean is converted to [1] or [0] and
    compared with [0]. *)
Definition release_count (n : option Z) : M unit :=
  s <- isSet ;;
  if negb s then throw (Error "Barrier not set.")
  else
    match n with
    | None => v <- get_value ;; set_value (v - 1)
    | Some n =>
        v <- get_value ;;
        if 0 <? Z.b2z (n <=? v) then set_value (v - n)
        else throw (RangeError "Invalid Argument")
    end.

Section Methods.

(** [fn.apply(null, args)]: running the body of a continuation. *)
Variable apply : waiter -> M unit.

(** Lines 157-161: [while (!this.isSet() && this.waiting.length > 0)], with
    [cb = this.waiting.pop(); cb.callback.apply(null, cb.args)] as its body.
    Fuel is spent by an iteration only. *)
Fixpoint drain (fuel : nat) : M unit := fun b =>
  if negb (0 <? value b) && (0 <? Z.of_nat (List.length (waiting b))) then
    match fuel with
    | O => diverge b
    | S fuel' =>
        (cb <- pop ;;
         match cb with
         | Some w => emit (Drained w) ;; apply w ;; drain fuel'
         | None => throw (TypeError "cb is undefined")
         end) b
    end
  else ret tt b.

(** Lines 144-162. *)
Definition release (fuel : nat) (n : option Z) : M unit :=
  release_count n ;; drain fuel.

(** Lines 170-180. *)
Definition wait (w : waiter) : M unit :=
  s <- isSet ;;
  if s then unshift w ;; emit (Queued w)
  else emit (Called w) ;; apply w.

End Methods.

(** ** Callers and continuation bodies *)

#[local] Set Warnings "-register-all".

(** A call into the barrier, as a caller or a continuation body makes it;
    [STry] is [try { ... } catch (e) {}] and [SIfSet] branches on
    [barr.isSet()]. *)
Inductive stmt : Type :=
| SAquire (n : option Z)
| SRelease (n : option Z)
| SWait (fn : fname) (a : list jsval)
| STry (body : list stmt)
| SIfSet (thn els : list stmt).

Section Exec.

(** The body of each function, by name and arguments. *)
Variable code : fname -> list jsval -> list stmt.

Fixpoint exec (fuel : nat) (p : list stmt) {struct fuel} : M unit :=
  match p with
  | [] => ret tt
  | c :: k =>
      match fuel with
      | O => diverge
      | S fuel' =>
          let apply := fun w => exec fuel' (code (callback w) (args w)) in
          (match c with
           | SAquire n => aquire n ;; ret tt
           | SRelease n => release apply fuel' n
           | SWait fn a => wait apply (mkWaiter a fn)
           | STry body => try_catch (exec fuel' body)
           | SIfSet thn els =>
               s <- isSet ;; if s then exec fuel' thn else exec fuel' els
           end) ;;
          exec fuel' k
      end
  end.

Definition apply_fn (fuel : nat) (w : waiter) : M unit :=
  exec fuel (code (callback w) (args w)).

End Exec.

(** [barr.wait(fn, ...args)] for the continuation [w]. *)
Definition register (w : waiter) : stmt := SWait (callback w) (args w).

(** ** Reading off events *)

(** The continuations [release] has invoked, in the order of invocation. *)
Fixpoint drained (t : list event) : list waiter :=
  match t with
  | [] => []
  | Drained w :: t' => w :: drained t'
  | _ :: t' => drained t'
  end.

(** The continuations [wait] has put on the array, in the order of
    registration. *)
Fixpoint queued (t : list event) : list waiter :=
  match t with
  | [] => []
  | Queued w :: t' => w :: queued t'
  | _ :: t' => queued t'
  end.

Definition jsval_eq_dec (x y : jsval) : {x = y} + {x <> y}.
Proof. decide equality; [apply Z.eq_dec | apply string_dec]. Defined.

Definition waiter_eq_dec (x y : waiter) : {x = y} + {x <> y}.
Proof.
  decide equality; [apply string_dec | apply (list_eq_dec jsval_eq_dec)].
Defined.

(** ** Scenarios of the specification *)

Module Scenario.
Local Open Scope string_scope.

Definition W1 : waiter := mkWaiter [] "W1".
Definition W2 : waiter := mkWaiter [] "W2".

(** [fn] with the argument ["x"], as in [barr.wait(fn, "x")]. *)
Definition Fx : waiter := mkWaiter [VStr "x"] "fn".

(** The continuation [R], whose body releases the barrier. *)
Definition R : waiter := mkWaiter [] "R".

(** Both waiters have empty bodies. *)
Definition inert (f : fname) (a : list jsval) : list stmt := [].

(** The body of [W1] calls [barr.aquire()]. *)
Definition reacquiring (f : fname) (a : list jsval) : list stmt :=
  if String.eqb f "W1" then [SAquire None] else [].

(** The body of [R] calls [barr.release()]. *)
Definition releasing (f : fname) (a : list jsval) : list stmt :=
  if String.eqb f "R" then [SRelease None] else [].

(** The body of [A] calls [barr.aquire()] and then [barr.release()]. *)
Definition nesting (f : fname) (a : list jsval) : list stmt :=
  if String.eqb f "A" then [SAquire None; SRelease None] else [].

Definition A : waiter := mkWaiter [] "A".

(** [barr.wait(W1); barr.wait(W2); barr.release()]. *)
Definition two_waiters_then_release : list stmt :=
  [SWait "W1" []; SWait "W2" []; SRelease None].
End Scenario.

(** ** Relations between the barrier before and after a computation *)

(** A computation respects [R] when [R] relates the barrier it starts from,
    the barrier it leaves and the events in between, however it completes:
    normally, by an exception, or cut off by the fuel. *)
Definition respects (R : Barrier -> Barrier -> list event -> Prop)
    {A} (m : M A) : Prop :=
  forall b, R b (after (m b)) (events (m b)).

(** The counter stays non-negative. *)
Definition stays_nonneg (b b' : Barrier) (t : list event) : Prop :=
  0 <= value b -> 0 <= value b'.

(** First in, first out.  The array has its most recent entry at index 0, so
    [rev (waiting b)] lists the queued continuations oldest first.  The
    continuations invoked from the array, followed by those still queued, are
    the ones queued before followed by the ones registered meanwhile. *)
Definition fifo (b b' : Barrier) (t : list event) : Prop :=
  drained t ++ rev (waiting b') = rev (waiting b) ++ queued t.

(** ** Further notions *)

(** No waiter sits on a clear barrier: the loop of [release] has nothing
    left to do. *)
Definition quiescent (b : Barrier) : Prop :=
  0 < value b \/ waiting b = [].

(** A caller or body that never catches an exception. *)
Fixpoint try_free_stmt (c : stmt) : bool :=
  match c with
  | STry _ => false
  | SIfSet thn els => forallb try_free_stmt thn && forallb try_free_stmt els
  | _ => true
  end.

Definition try_free (p : list stmt) : bool := forallb try_free_stmt p.

(** ** Equations of the monad and of the primitive steps *)

Lemma result_eta {A} (r : result A) :
  mkResult (outcome r) (after r) (events r) = r.
Proof. destruct r; reflexivity. Qed.

Lemma bind_Normal {A B} (m : M A) (f : A -> M B) b a :
  outcome (m b) = Normal a ->
  bind m f b =
  mkResult (outcome (f a (after (m b)))) (after (f a (after (m b))))
           (events (m b) ++ events (f a (after (m b)))).
Proof. intros H. unfold bind. rewrite H. reflexivity. Qed.

Lemma bind_Throw {A B} (m : M A) (f : A -> M B) b e :
  outcome (m b) = Throw e ->
  bind m f b = mkResult (Throw e) (after (m b)) (events (m b)).
Proof. intros H. unfold bind. rewrite H. reflexivity. Qed.

Lemma bind_Diverge {A B} (m : M A) (f : A -> M B) b :
  outcome (m b) = Diverge ->
  bind m f b = mkResult Diverge (after (m b)) (events (m b)).
Proof. intros H. unfold bind. rewrite H. reflexivity. Qed.

Lemma pop_snoc b q w :
  waiting b = q ++ [w] ->
  pop b = mkResult (Normal (Some w)) (mkBarrier (value b) q) [].
Proof.
  intros Hq. unfold pop. rewrite Hq.
  destruct q as [|x q']; simpl; [reflexivity|].
  rewrite last_last.
  destruct (q' ++ [w]) eqn:E.
  - destruct q'; discriminate.
  - rewrite <- E, removelast_last. reflexivity.
Qed.

Lemma waiting_snoc b :
  (0 <? Z.of_nat (List.length (waiting b))) = true ->
  exists q w, waiting b = q ++ [w].
Proof.
  intros H. destruct (waiting b) as [|x l] eqn:E; [discriminate|].
  destruct (@exists_last _ (x :: l)) as (q & w & Hq); [discriminate|].
  exists q, w. exact Hq.
Qed.

(** ** The counter *)

Lemma aquire_None b :
  aquire None b =
  mkResult (Normal (value b + 1)) (mkBarrier (value b + 1) (waiting b)) [].
Proof. reflexivity. Qed.

Lemma aquire_Some_nonneg b m :
  0 <= m ->
  aquire (Some m) b =
  mkResult (Normal (value b + m)) (mkBarrier (value b + m) (waiting b)) [].
Proof.
  intros Hm. unfold aquire, bind.
  destruct (0 <=? m) eqn:E; [reflexivity | apply Z.leb_gt in E; lia].
Qed.

Lemma aquire_Some_neg b m :
  m < 0 ->
  aquire (Some m) b = mkResult (Throw (RangeError "Invalid Argument")) b [].
Proof.
  intros Hm. unfold aquire, bind.
  destruct (0 <=? m) eqn:E; [apply Z.leb_le in E; lia | reflexivity].
Qed.

Lemma release_count_not_set b n :
  value b <= 0 ->
  release_count n b = mkResult (Throw (Error "Barrier not set.")) b [].
Proof.
  intros Hv. unfold release_count, bind, isSet. simpl.
  destruct (0 <? value b) eqn:E; [apply Z.ltb_lt in E; lia | reflexivity].
Qed.

Lemma release_count_None b :
  0 < value b ->
  release_count None b =
  mkResult (Normal tt) (mkBarrier (value b - 1) (waiting b)) [].
Proof.
  intros Hv. unfold release_count, bind, isSet. simpl.
  destruct (0 <? value b) eqn:E; [reflexivity | apply Z.ltb_ge in E; lia].
Qed.

(** What line 150 accepts: every [n] up to the counter, whatever its sign. *)
Lemma release_count_Some_le b n :
  0 < value b -> n <= value b ->
  release_count (Some n) b =
  mkResult (Normal tt) (mkBarrier (value b - n) (waiting b)) [].
Proof.
  intros Hv Hn. unfold release_count, bind, isSet. simpl.
  destruct (0 <? value b) eqn:E; [|apply Z.ltb_ge in E; lia]. simpl.
  destruct (n <=? value b) eqn:E'; [reflexivity | apply Z.leb_gt in E'; lia].
Qed.

Lemma release_count_Some_gt b n :
  0 < value b -> value b < n ->
  release_count (Some n) b =
  mkResult (Throw (RangeError "Invalid Argument")) b [].
Proof.
  intros Hv Hn. unfold release_count, bind, isSet. simpl.
  destruct (0 <? value b) eqn:E; [|apply Z.ltb_ge in E; lia]. simpl.
  destruct (n <=? value b) eqn:E'; [apply Z.leb_le in E'; lia | reflexivity].
Qed.

Lemma release_throw apply fuel n b e :
  outcome (release_count n b) = Throw e ->
  release apply fuel n b =
  mkResult (Throw e) (after (release_count n b)) (events (release_count n b)).
Proof. intros H. unfold release. apply bind_Throw, H. Qed.

Lemma release_continue apply fuel n b b' :
  release_count n b = mkResult (Normal tt) b' [] ->
  release apply fuel n b = drain apply fuel b'.
Proof.
  intros H. unfold release.
  rewrite (bind_Normal _ _ _ tt) by (rewrite H; reflexivity).
  rewrite H. simpl. apply result_eta.
Qed.

Lemma drain_done apply fuel b :
  0 < value b \/ waiting b = [] ->
  drain apply fuel b = mkResult (Normal tt) b [].
Proof.
  intros H. destruct fuel; simpl.
  all: destruct H as [H|H];
    [ destruct (0 <? value b) eqn:E; [reflexivity | apply Z.ltb_ge in E; lia]
    | rewrite H; simpl; rewrite andb_false_r; reflexivity ].
Qed.

Lemma drain_step apply fuel b q w :
  value b <= 0 -> waiting b = q ++ [w] ->
  drain apply (S fuel) b =
  (emit (Drained w) ;; apply w ;; drain apply fuel) (mkBarrier (value b) q).
Proof.
  intros Hv Hq. simpl.
  destruct (0 <? value b) eqn:E; [apply Z.ltb_lt in E; lia|].
  rewrite Hq at 1. rewrite length_app. simpl.
  replace (0 <? Z.of_nat (List.length q + 1)) with true
    by (symmetry; apply Z.ltb_lt; lia).
  simpl.
  rewrite (bind_Normal _ _ _ (Some w)) by (rewrite (pop_snoc b q w Hq); reflexivity).
  rewrite (pop_snoc b q w Hq). reflexivity.
Qed.

(** ** Relations respected by every execution *)

Section Respects.

Variable R : Barrier -> Barrier -> list event -> Prop.

Hypothesis R_refl : forall b, R b b [].
Hypothesis R_trans : forall b1 b2 b3 t1 t2,
  R b1 b2 t1 -> R b2 b3 t2 -> R b1 b3 (t1 ++ t2).
Hypothesis R_called : forall b w, R b b [Called w].
Hypothesis R_counter : forall b v,
  (0 <= value b -> 0 <= v) -> R b (mkBarrier v (waiting b)) [].
Hypothesis R_unshift : forall b w,
  R b (mkBarrier (value b) (w :: waiting b)) [Queued w].
Hypothesis R_pop : forall b q w,
  waiting b = q ++ [w] -> R b (mkBarrier (value b) q) [Drained w].

Lemma respects_ret {A} (a : A) : respects R (ret a).
Proof. intros b. apply R_refl. Qed.

Lemma respects_throw {A} e : respects R (@throw A e).
Proof. intros b. apply R_refl. Qed.

Lemma respects_diverge {A} : respects R (@diverge A).
Proof. intros b. apply R_refl. Qed.

Lemma respects_bind {A B} (m : M A) (f : A -> M B) :
  respects R m -> (forall a, respects R (f a)) -> respects R (bind m f).
Proof.
  intros Hm Hf b. unfold bind.
  destruct (outcome (m b)) eqn:E; simpl; [|apply Hm ..].
  eapply R_trans; [apply Hm | apply Hf].
Qed.

Lemma respects_try_catch m : respects R m -> respects R (try_catch m).
Proof.
  intros Hm b. unfold try_catch.
  destruct (outcome (m b)); simpl; apply Hm.
Qed.

Lemma respects_isSet : respects R isSet.
Proof. intros b. apply R_refl. Qed.

Lemma respects_aquire n : respects R (aquire n).
Proof.
  intros b. destruct n as [m|].
  - destruct (Z_lt_le_dec m 0) as [Hm|Hm].
    + rewrite aquire_Some_neg by assumption. apply R_refl.
    + rewrite aquire_Some_nonneg by assumption. apply R_counter. simpl. lia.
  - rewrite aquire_None. apply R_counter. simpl. lia.
Qed.

Lemma respects_release_count n : respects R (release_count n).
Proof.
  intros b. destruct (Z_lt_le_dec 0 (value b)) as [Hv|Hv].
  - destruct n as [m|].
    + destruct (Z_lt_le_dec (value b) m) as [Hm|Hm].
      * rewrite release_count_Some_gt by assumption. apply R_refl.
      * rewrite release_count_Some_le by assumption.
        apply R_counter. simpl. lia.
    + rewrite release_count_None by assumption. apply R_counter. simpl. lia.
  - rewrite release_count_not_set by assumption. apply R_refl.
Qed.

Section WithApply.

Variable apply : waiter -> M unit.
Hypothesis respects_apply : forall w, respects R (apply w).

Lemma respects_drain fuel : respects R (drain apply fuel).
Proof.
  induction fuel as [|fuel IH]; intros b.
  - simpl. destruct (_ && _); apply R_refl.
  - destruct (Z_lt_le_dec 0 (value b)) as [Hv|Hv].
    { rewrite drain_done by (left; assumption). apply R_refl. }
    destruct (waiting b) as [|x l] eqn:E.
    { rewrite drain_done by (right; assumption). apply R_refl. }
    destruct (@exists_last _ (x :: l)) as (q & w & Hq); [discriminate|].
    rewrite <- E in Hq.
    rewrite (drain_step apply fuel b q w Hv Hq).
    change (R b
      (after ((apply w ;; drain apply fuel) (mkBarrier (value b) q)))
      ([Drained w] ++
       events ((apply w ;; drain apply fuel) (mkBarrier (value b) q)))).
    eapply R_trans; [apply R_pop, Hq|].
    apply respects_bind; [apply respects_apply | intros _; apply IH].
Qed.

Lemma respects_release fuel n : respects R (release apply fuel n).
Proof.
  apply respects_bind;
    [apply respects_release_count | intros _; apply respects_drain].
Qed.

Lemma respects_wait w : respects R (wait apply w).
Proof.
  intros b. unfold wait, bind, isSet. simpl.
  destruct (0 <? value b); simpl.
  - apply R_unshift.
  - destruct (outcome (apply w b)); simpl;
      (eapply (R_trans _ _ _ [Called w]);
       [apply R_called | apply respects_apply]).
Qed.

End WithApply.

Lemma respects_exec code fuel : forall p, respects R (exec code fuel p).
Proof.
  induction fuel as [|fuel IH]; intros p; destruct p as [|c k]; simpl;
    try apply respects_ret; try apply respects_diverge.
  apply respects_bind; [|intros _; apply IH].
  destruct c as [n|n|fn a|body|thn els].
  - apply respects_bind; [apply respects_aquire | intros _; apply respects_ret].
  - apply respects_release. intros w. apply IH.
  - apply respects_wait. intros w. apply IH.
  - apply respects_try_catch, IH.
  - apply respects_bind; [apply respects_isSet|].
    intros s. destruct s; apply IH.
Qed.

End Respects.

(** ** The two relations are respected *)

Lemma drained_app t1 t2 : drained (t1 ++ t2) = drained t1 ++ drained t2.
Proof.
  induction t1 as [|ev t1 IH]; simpl; [reflexivity|].
  destruct ev; simpl; rewrite IH; reflexivity.
Qed.

Lemma queued_app t1 t2 : queued (t1 ++ t2) = queued t1 ++ queued t2.
Proof.
  induction t1 as [|ev t1 IH]; simpl; [reflexivity|].
  destruct ev; simpl; rewrite IH; reflexivity.
Qed.

Lemma fifo_trans b1 b2 b3 t1 t2 :
  fifo b1 b2 t1 -> fifo b2 b3 t2 -> fifo b1 b3 (t1 ++ t2).
Proof.
  unfold fifo. intros H12 H23.
  rewrite drained_app, queued_app, <- app_assoc, H23.
  rewrite !app_assoc, H12. reflexivity.
Qed.

Lemma fifo_pop b q w :
  waiting b = q ++ [w] -> fifo b (mkBarrier (value b) q) [Drained w].
Proof.
  intros H. unfold fifo. simpl.
  rewrite H, rev_app_distr, app_nil_r. reflexivity.
Qed.

(** The remaining steps hold by computation, up to a trailing [[]]. *)
Ltac fifo_step :=
  intros; unfold fifo; simpl; rewrite ?app_nil_r; reflexivity.

Lemma exec_fifo code fuel p : respects fifo (exec code fuel p).
Proof.
  apply respects_exec;
    first [exact fifo_trans | exact fifo_pop | fifo_step].
Qed.

Lemma release_fifo code fa fuel n :
  respects fifo (release (apply_fn code fa) fuel n).
Proof.
  apply respects_release;
    first [exact fifo_trans | exact fifo_pop
          | intros w; apply exec_fifo | fifo_step].
Qed.

Lemma exec_stays_nonneg code fuel p : respects stays_nonneg (exec code fuel p).
Proof.
  apply respects_exec; unfold stays_nonneg; simpl; intros; auto.
Qed.

(** ** Construction *)

(** C8.  Constructing with [n >= 0] gives counter [n], an empty array of
    waiters and [isSet()] equal to [n > 0]; with the argument omitted the
    counter is [0]; constructing with [n < 0] throws the range error. *)
Theorem Barrier_new_spec :
  (forall n, 0 <= n ->
     Barrier_new (Some n) = Normal (mkBarrier n []) /\
     outcome (isSet (mkBarrier n [])) = Normal (0 <? n)) /\
  (Barrier_new None = Normal (mkBarrier 0 []) /\
   outcome (isSet (mkBarrier 0 [])) = Normal false) /\
  (forall n, n < 0 ->
     Barrier_new (Some n) = Throw (RangeError "Invalid Argument")).
Proof.
  split; [|split].
  - intros n Hn. split; [|reflexivity].
    unfold Barrier_new.
    destruct (n <? 0) eqn:E; [apply Z.ltb_lt in E; lia|].
    destruct (n =? 0) eqn:E0; [apply Z.eqb_eq in E0; subst|]; reflexivity.
  - split; reflexivity.
  - intros n Hn. unfold Barrier_new.
    destruct (n <? 0) eqn:E; [reflexivity | apply Z.ltb_ge in E; lia].
Qed.

Lemma Barrier_new_spec_witness :
  (Barrier_new (Some 3) = Normal (mkBarrier 3 []) /\
   outcome (isSet (mkBarrier 3 [])) = Normal true) /\
  (Barrier_new (Some 0) = Normal (mkBarrier 0 []) /\
   outcome (isSet (mkBarrier 0 [])) = Normal false) /\
  Barrier_new (Some (-2)) = Throw (RangeError "Invalid Argument").
Proof.
  destruct Barrier_new_spec as (Hok & _ & Hneg).
  split; [apply (Hok 3); lia | split; [apply (Hok 0); lia | apply (Hneg (-2)); lia]].
Defined.

(** ** [aquire] *)

(** C6.  Within the safe integers, [aquire()] adds 1 to the counter and
    [aquire(m)] with [m >= 0] adds [m]; [aquire(0)] changes nothing; all
    return the new counter and leave the waiters alone.  [aquire(m)] with
    [m < 0] throws the range error and the barrier is as before. *)
Theorem aquire_spec (b : Barrier) :
  (safe_integer (value b) -> safe_integer (value b + 1) ->
     aquire None b =
       mkResult (Normal (value b + 1))
                (mkBarrier (value b + 1) (waiting b)) []) /\
  (forall m, 0 <= m ->
     safe_integer (value b) -> safe_integer (value b + m) ->
     aquire (Some m) b =
       mkResult (Normal (value b + m)) (mkBarrier (value b + m) (waiting b)) []) /\
  aquire (Some 0) b = mkResult (Normal (value b)) b [] /\
  (forall m, m < 0 ->
     aquire (Some m) b = mkResult (Throw (RangeError "Invalid Argument")) b []).
Proof.
  split; [intros _ _; apply aquire_None | split; [|split]].
  - intros m Hm _ _. apply aquire_Some_nonneg, Hm.
  - rewrite aquire_Some_nonneg by lia. rewrite Z.add_0_r.
    destruct b; reflexivity.
  - intros m Hm. apply aquire_Some_neg, Hm.
Qed.

Lemma aquire_spec_witness :
  aquire None (mkBarrier 3 []) = mkResult (Normal 4) (mkBarrier 4 []) [] /\
  aquire (Some 2) (mkBarrier 3 []) = mkResult (Normal 5) (mkBarrier 5 []) [] /\
  aquire (Some (-1)) (mkBarrier 3 []) =
    mkResult (Throw (RangeError "Invalid Argument")) (mkBarrier 3 []) [].
Proof.
  destruct (aquire_spec (mkBarrier 3 [])) as (Hinc & Hok & _ & Hneg).
  split; [|split].
  - apply Hinc; unfold safe_integer, MAX_SAFE_INTEGER; simpl; lia.
  - apply (Hok 2); unfold safe_integer, MAX_SAFE_INTEGER; simpl; lia.
  - apply (Hneg (-1)); lia.
Defined.

(** ** [release]: the counter *)

(** C5.  On a barrier whose counter is 0, [release], with or without an
    argument, throws the error "Barrier not set." and changes nothing.  On a
    barrier with counter [c > 0], a safe integer, [release()] sets the
    counter to [c - 1] and goes on to the loop over the waiters, which does
    nothing when [c - 1 > 0] or nobody waits. *)
Theorem release_not_set_or_decrement apply fuel b :
  (value b = 0 ->
     forall n, release apply fuel n b =
               mkResult (Throw (Error "Barrier not set.")) b []) /\
  (0 < value b -> safe_integer (value b) ->
     release_count None b =
       mkResult (Normal tt) (mkBarrier (value b - 1) (waiting b)) [] /\
     release apply fuel None b =
       drain apply fuel (mkBarrier (value b - 1) (waiting b)) /\
     (1 < value b \/ waiting b = [] ->
        release apply fuel None b =
          mkResult (Normal tt) (mkBarrier (value b - 1) (waiting b)) [])).
Proof.
  split.
  - intros Hv n.
    assert (H := release_count_not_set b n ltac:(lia)).
    rewrite (release_throw apply fuel n b (Error "Barrier not set."))
      by (rewrite H; reflexivity).
    rewrite H. reflexivity.
  - intros Hv _.
    assert (H := release_count_None b Hv).
    split; [exact H | split].
    + apply release_continue, H.
    + intros Hd. rewrite (release_continue _ _ _ _ _ H).
      apply drain_done. simpl. destruct Hd; [left; lia | right; assumption].
Qed.

Lemma release_not_set_or_decrement_witness :
  release (fun _ => ret tt) 1 None (mkBarrier 0 []) =
    mkResult (Throw (Error "Barrier not set.")) (mkBarrier 0 []) [] /\
  release (fun _ => ret tt) 1 (Some 1) (mkBarrier 0 []) =
    mkResult (Throw (Error "Barrier not set.")) (mkBarrier 0 []) [] /\
  release (fun _ => ret tt) 1 None (mkBarrier 3 []) =
    mkResult (Normal tt) (mkBarrier 2 []) [].
Proof.
  split; [|split].
  - apply (proj1 (release_not_set_or_decrement (fun _ => ret tt) 1
                    (mkBarrier 0 []))); reflexivity.
  - apply (proj1 (release_not_set_or_decrement (fun _ => ret tt) 1
                    (mkBarrier 0 []))); reflexivity.
  - destruct (proj2 (release_not_set_or_decrement (fun _ => ret tt) 1
                       (mkBarrier 3 [])) ltac:(simpl; lia)
                    ltac:(unfold safe_integer, MAX_SAFE_INTEGER; simpl; lia))
      as (_ & _ & H).
    apply H. left. simpl. lia.
Defined.

(** C2.  What the guard of line 150 does with an explicit argument that is
    not positive: on a barrier with counter [c > 0], [release(n)] with
    [n <= 0] throws nothing and sets the counter to [c - n], so [release(0)]
    leaves it and [release(-1)] raises it. *)
Theorem release_accepts_nonpositive apply fuel b n :
  0 < value b -> n <= 0 ->
  release apply fuel (Some n) b =
    mkResult (Normal tt) (mkBarrier (value b - n) (waiting b)) [].
Proof.
  intros Hv Hn.
  rewrite (release_continue _ _ _ _ _
             (release_count_Some_le b n Hv ltac:(lia))).
  apply drain_done. left. simpl. lia.
Qed.

Lemma release_accepts_nonpositive_witness :
  release (fun _ => ret tt) 1 (Some 0) (mkBarrier 1 []) =
    mkResult (Normal tt) (mkBarrier 1 []) [] /\
  release (fun _ => ret tt) 1 (Some (-1)) (mkBarrier 1 []) =
    mkResult (Normal tt) (mkBarrier 2 []) [].
Proof.
  split.
  - apply (release_accepts_nonpositive (fun _ => ret tt) 1 (mkBarrier 1 []) 0);
      simpl; lia.
  - apply (release_accepts_nonpositive (fun _ => ret tt) 1 (mkBarrier 1 []) (-1));
      simpl; lia.
Defined.

(** ** [wait] *)

(** C4.  When the counter is 0, [wait(fn, ...args)] applies [fn] to [args]
    at once, on the barrier as it is, and returns when [fn] has; it puts
    nothing on the array.  When the counter is positive, [fn] is not
    applied and [{args, callback: fn}] is put on the array, at index 0. *)
Theorem wait_spec apply fn a b :
  (value b = 0 ->
     outcome (wait apply (mkWaiter a fn) b) = outcome (apply (mkWaiter a fn) b) /\
     after (wait apply (mkWaiter a fn) b) = after (apply (mkWaiter a fn) b) /\
     events (wait apply (mkWaiter a fn) b) =
       Called (mkWaiter a fn) :: events (apply (mkWaiter a fn) b)) /\
  (0 < value b ->
     wait apply (mkWaiter a fn) b =
       mkResult (Normal tt)
                (mkBarrier (value b) (mkWaiter a fn :: waiting b))
                [Queued (mkWaiter a fn)]).
Proof.
  split; intros Hv; unfold wait, bind, isSet; simpl.
  - rewrite Hv. simpl.
    destruct (outcome (apply (mkWaiter a fn) b)); simpl; auto.
  - destruct (0 <? value b) eqn:E; [reflexivity | apply Z.ltb_ge in E; lia].
Qed.

Lemma wait_spec_witness :
  events (wait (apply_fn Scenario.inert 1) Scenario.Fx (mkBarrier 0 [])) =
    [Called Scenario.Fx] /\
  wait (apply_fn Scenario.inert 1) Scenario.Fx (mkBarrier 2 []) =
    mkResult (Normal tt) (mkBarrier 2 [Scenario.Fx]) [Queued Scenario.Fx].
Proof.
  split.
  - apply (proj1 (wait_spec (apply_fn Scenario.inert 1) (callback Scenario.Fx)
                    (args Scenario.Fx) (mkBarrier 0 []))). reflexivity.
  - apply (proj2 (wait_spec (apply_fn Scenario.inert 1) (callback Scenario.Fx)
                    (args Scenario.Fx) (mkBarrier 2 []))). simpl. lia.
Defined.

(** ** The order of the drain *)

Lemma exec_nil code fuel b : exec code fuel [] b = mkResult (Normal tt) b [].
Proof. destruct fuel; reflexivity. Qed.

(** Registering on a set barrier puts each new waiter in front. *)
Lemma exec_register code ws : forall fuel b,
  0 < value b -> (List.length ws <= fuel)%nat ->
  exec code fuel (map register ws) b =
    mkResult (Normal tt) (mkBarrier (value b) (rev ws ++ waiting b))
             (map Queued ws).
Proof.
  induction ws as [|w ws IH]; intros fuel b Hv Hf; simpl.
  - rewrite exec_nil. destruct b; reflexivity.
  - destruct fuel as [|fuel]; [simpl in Hf; lia|].
    simpl in Hf. simpl.
    unfold bind at 1, wait, bind at 1, isSet. simpl.
    destruct (0 <? value b) eqn:E; [|apply Z.ltb_ge in E; lia]. simpl.
    rewrite IH by (simpl; lia). simpl.
    destruct w as [a f]. simpl. rewrite <- app_assoc. reflexivity.
Qed.

(** With continuations that do not touch the barrier, the loop of [release]
    empties the array from its last index down. *)
Lemma drain_all_inert apply q : forall fuel b,
  (forall w b', In w q -> apply w b' = mkResult (Normal tt) b' []) ->
  value b <= 0 -> waiting b = q -> (List.length q <= fuel)%nat ->
  drain apply fuel b =
    mkResult (Normal tt) (mkBarrier (value b) []) (map Drained (rev q)).
Proof.
  induction q as [|w q IH] using rev_ind; intros fuel b Hin Hv Hq Hf.
  - rewrite drain_done by (right; assumption).
    destruct b; simpl in *; subst; reflexivity.
  - rewrite length_app in Hf. simpl in Hf.
    destruct fuel as [|fuel]; [lia|].
    rewrite (drain_step apply fuel b q w Hv Hq).
    unfold bind at 1, emit. simpl.
    unfold bind. rewrite Hin by (apply in_or_app; right; left; reflexivity).
    simpl.
    rewrite IH; simpl; try lia; try reflexivity.
    + rewrite rev_app_distr. reflexivity.
    + intros w' b' Hw'. apply Hin, in_or_app. left. exact Hw'.
Qed.

(** Continuations at the end of the array that do not touch the barrier are
    invoked oldest first, and the loop goes on with the rest. *)
Lemma drain_inert_prefix apply older : forall fuel b q,
  (forall w b', In w older -> apply w b' = mkResult (Normal tt) b' []) ->
  value b <= 0 -> waiting b = q ++ older ->
  drain apply (List.length older + fuel) b =
    mkResult (outcome (drain apply fuel (mkBarrier (value b) q)))
             (after (drain apply fuel (mkBarrier (value b) q)))
             (map Drained (rev older) ++
              events (drain apply fuel (mkBarrier (value b) q))).
Proof.
  induction older as [|x o IH] using rev_ind; intros fuel b q Hin Hv Hq.
  - rewrite app_nil_r in Hq. simpl.
    replace (mkBarrier (value b) q) with b
      by (destruct b; simpl in *; subst; reflexivity).
    symmetry. apply result_eta.
  - replace (List.length (o ++ [x]) + fuel)%nat
      with (S (List.length o + fuel))
      by (rewrite length_app; simpl; lia).
    rewrite app_assoc in Hq.
    rewrite (drain_step apply _ b (q ++ o) x Hv Hq).
    unfold bind at 1, emit. simpl.
    unfold bind. rewrite Hin by (apply in_or_app; right; left; reflexivity).
    simpl.
    rewrite (IH fuel (mkBarrier (value b) (q ++ o)) q); simpl;
      try lia; try reflexivity.
    + rewrite rev_app_distr. reflexivity.
    + intros w' b' Hw'. apply Hin, in_or_app. left. exact Hw'.
Qed.

(** The oldest waiter is the first to be invoked. *)
Lemma release_first_drained apply fuel n b q w :
  release_count n b = mkResult (Normal tt) (mkBarrier 0 (waiting b)) [] ->
  waiting b = q ++ [w] ->
  exists t, events (release apply (S fuel) n b) = Drained w :: t.
Proof.
  intros Hc Hq. rewrite (release_continue _ _ _ _ _ Hc).
  rewrite (drain_step apply fuel _ q w); simpl; [|lia|exact Hq].
  eexists. reflexivity.
Qed.

(** C1, as the code has it.  Waiters [w1], then [ws], are registered in this
    order on a set barrier with nobody waiting, and a [release] then brings
    the counter to 0.  The array holds them most recent first, and the loop
    takes from its end: [w1], the least recently registered, is invoked
    first; the continuations invoked, followed by those left on the array
    oldest first, are the registered ones in the order of registration,
    followed by those registered during the call; and when the bodies do not
    touch the barrier all are invoked, in the order of registration. *)
Theorem drain_order_fifo code fa fuel n c w1 ws b :
  0 < c ->
  exec code (List.length (w1 :: ws)) (map register (w1 :: ws)) (mkBarrier c [])
    = mkResult (Normal tt) b (map Queued (w1 :: ws)) ->
  release_count n b = mkResult (Normal tt) (mkBarrier 0 (waiting b)) [] ->
  waiting b = rev (w1 :: ws) /\
  (exists t,
     events (release (apply_fn code fa) (S fuel) n b) = Drained w1 :: t) /\
  drained (events (release (apply_fn code fa) (S fuel) n b)) ++
    rev (waiting (after (release (apply_fn code fa) (S fuel) n b))) =
    (w1 :: ws) ++ queued (events (release (apply_fn code fa) (S fuel) n b)) /\
  ((forall w, In w (w1 :: ws) -> code (callback w) (args w) = []) ->
   (List.length ws <= fuel)%nat ->
   release (apply_fn code fa) (S fuel) n b =
     mkResult (Normal tt) (mkBarrier 0 []) (map Drained (w1 :: ws))).
Proof.
  intros Hc Hreg Hcount.
  rewrite exec_register in Hreg by (simpl; lia).
  injection Hreg as Hb. rewrite app_nil_r in Hb.
  assert (Hw : waiting b = rev (w1 :: ws)) by (subst b; reflexivity).
  split; [exact Hw | split; [|split]].
  - apply (release_first_drained _ _ _ _ (rev ws)); [exact Hcount|].
    rewrite Hw. reflexivity.
  - rewrite (release_fifo code fa (S fuel) n b).
    rewrite Hw, rev_involutive. reflexivity.
  - intros Hinert Hf.
    rewrite (release_continue _ _ _ _ _ Hcount).
    rewrite (drain_all_inert _ (rev (w1 :: ws))); simpl;
      try lia; try exact Hw.
    + change (rev ws ++ [w1]) with (rev (w1 :: ws)).
      rewrite rev_involutive. reflexivity.
    + intros w b' Hin. unfold apply_fn.
      rewrite Hinert by (apply in_rev; exact Hin). apply exec_nil.
    + rewrite length_app, length_rev. simpl. lia.
Qed.

Lemma drain_order_fifo_witness :
  events (release (apply_fn Scenario.inert 1) 2 None
            (mkBarrier 1 [Scenario.W2; Scenario.W1])) =
    [Drained Scenario.W1; Drained Scenario.W2].
Proof.
  destruct (drain_order_fifo Scenario.inert 1 1 None 1 Scenario.W1
              [Scenario.W2] (mkBarrier 1 [Scenario.W2; Scenario.W1]))
    as (_ & _ & _ & H); [lia | reflexivity | reflexivity |].
  rewrite H; [reflexivity | reflexivity | simpl; lia].
Defined.

(** C1 as stated fails.  Barrier at count 1, [wait(W1)], [wait(W2)],
    [release()]: [W1] is invoked before [W2], not after it. *)
Lemma lifo_drain_order_counterexample :
  Barrier_new (Some 1) = Normal (mkBarrier 1 []) /\
  outcome (exec Scenario.inert 10 Scenario.two_waiters_then_release
             (mkBarrier 1 [])) = Normal tt /\
  drained (events (exec Scenario.inert 10 Scenario.two_waiters_then_release
                     (mkBarrier 1 []))) = [Scenario.W1; Scenario.W2] /\
  drained (events (exec Scenario.inert 10 Scenario.two_waiters_then_release
                     (mkBarrier 1 []))) <> [Scenario.W2; Scenario.W1].
Proof.
  split; [reflexivity | split; [reflexivity | split]];
    [reflexivity | discriminate].
Qed.

(** ** Re-entrant calls during the drain *)

(** The loop stops after a continuation that leaves the barrier set. *)
Lemma drain_halts_when_set apply fuel b q w b1 t1 :
  value b <= 0 -> waiting b = q ++ [w] ->
  apply w (mkBarrier (value b) q) = mkResult (Normal tt) b1 t1 ->
  0 < value b1 ->
  drain apply (S fuel) b = mkResult (Normal tt) b1 (Drained w :: t1).
Proof.
  intros Hv Hq Hw Hset.
  rewrite (drain_step apply fuel b q w Hv Hq).
  unfold bind at 1, emit. simpl.
  unfold bind. rewrite Hw. simpl.
  rewrite drain_done by (left; exact Hset). simpl.
  rewrite app_nil_r. reflexivity.
Qed.

(** C3.  A [release] brings the counter to 0.  The oldest waiters [older] do
    not touch the barrier, and the body of the next one, [w], calls
    [aquire], setting the barrier again ([aquire()], or [aquire(k)] with
    [k > 0]).  Then [release] invokes [older] and [w], and nothing after
    [w]; it returns normally, and the other waiters [q] are still on the
    array. *)
Theorem reentrant_aquire_halts_drain code fa fuel n b q w older m :
  release_count n b = mkResult (Normal tt) (mkBarrier 0 (waiting b)) [] ->
  waiting b = q ++ w :: older ->
  (forall w', In w' older -> code (callback w') (args w') = []) ->
  code (callback w) (args w) = [SAquire m] ->
  0 < match m with None => 1 | Some k => k end ->
  release (apply_fn code (S fa)) (List.length older + S fuel) n b =
    mkResult (Normal tt)
             (mkBarrier (match m with None => 1 | Some k => k end) q)
             (map Drained (rev older) ++ [Drained w]).
Proof.
  intros Hc Hq Hinert Hbody Hm.
  rewrite (release_continue _ _ _ _ _ Hc).
  assert (Hw : apply_fn code (S fa) w (mkBarrier 0 q) =
               mkResult (Normal tt)
                 (mkBarrier (match m with None => 1 | Some k => k end) q) []).
  { unfold apply_fn. rewrite Hbody.
    change (exec code (S fa) [SAquire m] (mkBarrier 0 q))
      with (((aquire m ;; ret tt) ;; exec code fa []) (mkBarrier 0 q)).
    unfold bind.
    destruct m as [k|].
    - rewrite aquire_Some_nonneg by lia. simpl. rewrite exec_nil. reflexivity.
    - rewrite aquire_None. simpl. rewrite exec_nil. reflexivity. }
  rewrite (drain_inert_prefix _ older (S fuel) _ (q ++ [w])).
  - cbn [value waiting].
    rewrite (drain_halts_when_set _ fuel (mkBarrier 0 (q ++ [w])) q w _ []
               (Z.le_refl 0) eq_refl Hw Hm).
    reflexivity.
  - intros w' b' Hin. unfold apply_fn. rewrite (Hinert w' Hin).
    apply exec_nil.
  - simpl. lia.
  - simpl. rewrite Hq, <- app_assoc. reflexivity.
Qed.

Lemma reentrant_aquire_halts_drain_witness :
  exec Scenario.reacquiring 2 [register Scenario.W1; register Scenario.W2]
       (mkBarrier 1 []) =
    mkResult (Normal tt) (mkBarrier 1 [Scenario.W2; Scenario.W1])
             [Queued Scenario.W1; Queued Scenario.W2] /\
  release (apply_fn Scenario.reacquiring 1) 1 None
          (mkBarrier 1 [Scenario.W2; Scenario.W1]) =
    mkResult (Normal tt) (mkBarrier 1 [Scenario.W2]) [Drained Scenario.W1].
Proof.
  split; [reflexivity|].
  apply (reentrant_aquire_halts_drain Scenario.reacquiring 0 0 None
           (mkBarrier 1 [Scenario.W2; Scenario.W1]) [Scenario.W2] Scenario.W1
           [] None);
    [reflexivity | reflexivity | intros w' [] | reflexivity | lia].
Defined.

(** ** The counter is never negative *)

(** C7.  A barrier the constructor has returned has a non-negative counter,
    and so has the barrier left by any sequence of calls on it, nested calls
    from continuations included, wherever the sequence stops.  The calls that
    would take the counter below 0 throw and leave the barrier as it was:
    constructing with a negative count, [aquire(m)] with [value + m < 0],
    [release(m)] with [value - m < 0], and [release()] at 0. *)
Theorem value_never_negative :
  (forall n b0, Barrier_new n = Normal b0 ->
     0 <= value b0 /\
     forall code fuel p, 0 <= value (after (exec code fuel p b0))) /\
  (forall n, n < 0 ->
     Barrier_new (Some n) = Throw (RangeError "Invalid Argument")) /\
  (forall b m, 0 <= value b -> value b + m < 0 ->
     aquire (Some m) b = mkResult (Throw (RangeError "Invalid Argument")) b []) /\
  (forall apply fuel b m, 0 <= value b -> value b - m < 0 ->
     exists e, release apply fuel (Some m) b = mkResult (Throw e) b []) /\
  (forall apply fuel b, 0 <= value b -> value b - 1 < 0 ->
     release apply fuel None b =
       mkResult (Throw (Error "Barrier not set.")) b []).
Proof.
  split; [|split; [|split; [|split]]].
  - intros n b0 Hnew.
    assert (H0 : 0 <= value b0).
    { destruct n as [n|]; simpl in Hnew.
      - destruct (n <? 0) eqn:E; [discriminate|]. apply Z.ltb_ge in E.
        injection Hnew as <-. simpl. destruct (n =? 0); lia.
      - injection Hnew as <-. simpl. lia. }
    split; [exact H0|]. intros code fuel p.
    apply (exec_stays_nonneg code fuel p b0), H0.
  - intros n Hn. unfold Barrier_new.
    destruct (n <? 0) eqn:E; [reflexivity | apply Z.ltb_ge in E; lia].
  - intros b m Hv Hm. apply aquire_Some_neg. lia.
  - intros apply fuel b m Hv Hm.
    destruct (Z.eq_dec (value b) 0) as [H0|H0].
    + exists (Error "Barrier not set.").
      assert (H := release_count_not_set b (Some m) ltac:(lia)).
      rewrite (release_throw apply fuel _ b (Error "Barrier not set."))
        by (rewrite H; reflexivity).
      rewrite H. reflexivity.
    + exists (RangeError "Invalid Argument").
      assert (H := release_count_Some_gt b m ltac:(lia) ltac:(lia)).
      rewrite (release_throw apply fuel _ b (RangeError "Invalid Argument"))
        by (rewrite H; reflexivity).
      rewrite H. reflexivity.
  - intros apply fuel b Hv H1.
    assert (H := release_count_not_set b None ltac:(lia)).
    rewrite (release_throw apply fuel _ b (Error "Barrier not set."))
      by (rewrite H; reflexivity).
    rewrite H. reflexivity.
Qed.

Lemma value_never_negative_witness :
  0 <= value (after (exec Scenario.nesting 10
                       [register Scenario.A; register Scenario.W2;
                        SRelease None;
                        STry [SRelease (Some 5)]; SAquire (Some 2)]
                       (mkBarrier 1 []))) /\
  aquire (Some (-4)) (mkBarrier 3 []) =
    mkResult (Throw (RangeError "Invalid Argument")) (mkBarrier 3 []) [] /\
  (exists e, release (fun _ => ret tt) 1 (Some 4) (mkBarrier 3 []) =
             mkResult (Throw e) (mkBarrier 3 []) []).
Proof.
  destruct value_never_negative as (Hreach & _ & Haq & Hrel & _).
  split; [|split].
  - apply (proj2 (Hreach (Some 1) (mkBarrier 1 []) eq_refl)).
  - apply (Haq (mkBarrier 3 []) (-4)); simpl; lia.
  - apply (Hrel (fun _ => ret tt) 1%nat (mkBarrier 3 []) 4); simpl; lia.
Defined.

(** ** Errors *)

Lemma aquire_cases n b :
  (exists e, aquire n b = mkResult (Throw e) b []) \/
  (exists v, aquire n b = mkResult (Normal v) (mkBarrier v (waiting b)) []).
Proof.
  destruct n as [m|].
  - destruct (Z_lt_le_dec m 0) as [Hm|Hm].
    + left. eexists. apply aquire_Some_neg, Hm.
    + right. eexists. apply aquire_Some_nonneg, Hm.
  - right. eexists. apply aquire_None.
Qed.

Lemma release_count_cases n b :
  (exists e, release_count n b = mkResult (Throw e) b []) \/
  (exists v, release_count n b =
             mkResult (Normal tt) (mkBarrier v (waiting b)) []).
Proof.
  destruct (Z_lt_le_dec 0 (value b)) as [Hv|Hv].
  - destruct n as [m|].
    + destruct (Z_lt_le_dec (value b) m) as [Hm|Hm].
      * left. eexists. apply release_count_Some_gt; assumption.
      * right. eexists. apply release_count_Some_le; assumption.
    + right. eexists. apply release_count_None, Hv.
  - left. eexists. apply release_count_not_set, Hv.
Qed.

Lemma bind_Throw_inv {A B} (m : M A) (f : A -> M B) b e :
  outcome (bind m f b) = Throw e ->
  outcome (m b) = Throw e \/
  exists a, outcome (m b) = Normal a /\
            outcome (f a (after (m b))) = Throw e.
Proof.
  unfold bind. destruct (outcome (m b)) as [a|e'|] eqn:E; simpl; intros H.
  - right. exists a. auto.
  - left. injection H as ->. reflexivity.
  - discriminate.
Qed.

(** The loop of [release] throws nothing of its own: an exception that
    leaves it was thrown by a continuation it has invoked. *)
Lemma drain_throw_from_continuation apply fuel : forall b e,
  outcome (drain apply fuel b) = Throw e ->
  exists w b', outcome (apply w b') = Throw e.
Proof.
  induction fuel as [|fuel IH]; intros b e H.
  - simpl in H. destruct (_ && _); discriminate.
  - destruct (Z_lt_le_dec 0 (value b)) as [Hv|Hv].
    { rewrite drain_done in H by (left; exact Hv). discriminate. }
    destruct (waiting b) as [|x l] eqn:E.
    { rewrite drain_done in H by (right; exact E). discriminate. }
    destruct (@exists_last _ (x :: l)) as (q & w & Hq); [discriminate|].
    rewrite <- E in Hq.
    rewrite (drain_step apply fuel b q w Hv Hq) in H.
    apply bind_Throw_inv in H. destruct H as [H|(a & _ & H)];
      [discriminate|].
    apply bind_Throw_inv in H. destruct H as [H|(a' & _ & H)].
    + eexists. eexists. exact H.
    + eapply IH, H.
Qed.

(** C9.  When [aquire(n)] throws, the barrier is as before the call and no
    continuation has been invoked.  When the checks of [release(n)] throw
    (barrier not set, or [n] above the counter), [release] throws that
    error, the barrier is as before the call and no continuation has been
    invoked.  [release] throws nothing else of its own: any other exception
    that comes out of it was thrown by a continuation. *)
Theorem error_leaves_barrier_unchanged apply fuel n b e :
  (outcome (aquire n b) = Throw e ->
     aquire n b = mkResult (Throw e) b []) /\
  (outcome (release_count n b) = Throw e ->
     release apply fuel n b = mkResult (Throw e) b []) /\
  (outcome (release apply fuel n b) = Throw e ->
     release apply fuel n b = mkResult (Throw e) b [] \/
     exists w b', outcome (apply w b') = Throw e).
Proof.
  split; [|split].
  - intros H. destruct (aquire_cases n b) as [(e' & He)|(v & Hv)].
    + rewrite He in H |- *. simpl in H. injection H as ->. reflexivity.
    + rewrite Hv in H. discriminate.
  - intros H. rewrite (release_throw apply fuel n b e H).
    destruct (release_count_cases n b) as [(e' & He)|(v & Hv)].
    + rewrite He. reflexivity.
    + rewrite Hv in H. discriminate.
  - intros H.
    destruct (release_count_cases n b) as [(e' & He)|(v & Hv)].
    + left.
      rewrite (release_throw apply fuel n b e') in H |- *
        by (rewrite He; reflexivity).
      rewrite He in H |- *. simpl in H. injection H as ->. reflexivity.
    + right. rewrite (release_continue _ _ _ _ _ Hv) in H.
      eapply drain_throw_from_continuation, H.
Qed.

Lemma error_leaves_barrier_unchanged_witness :
  aquire (Some (-1)) (mkBarrier 1 [Scenario.W1]) =
    mkResult (Throw (RangeError "Invalid Argument"))
             (mkBarrier 1 [Scenario.W1]) [] /\
  release (apply_fn Scenario.inert 1) 1 (Some 5) (mkBarrier 1 [Scenario.W1]) =
    mkResult (Throw (RangeError "Invalid Argument"))
             (mkBarrier 1 [Scenario.W1]) [] /\
  release (apply_fn Scenario.inert 1) 1 None (mkBarrier 0 [Scenario.W1]) =
    mkResult (Throw (Error "Barrier not set.")) (mkBarrier 0 [Scenario.W1]) [] /\
  (release (apply_fn Scenario.releasing 2) 2 None (mkBarrier 1 [Scenario.R]) =
     mkResult (Throw (Error "Barrier not set.")) (mkBarrier 1 [Scenario.R]) [] \/
   exists w b',
     outcome (apply_fn Scenario.releasing 2 w b') =
       Throw (Error "Barrier not set.")).
Proof.
  split; [|split; [|split]].
  - apply (proj1 (error_leaves_barrier_unchanged (apply_fn Scenario.inert 1) 1
                    (Some (-1)) (mkBarrier 1 [Scenario.W1])
                    (RangeError "Invalid Argument"))).
    reflexivity.
  - apply (proj1 (proj2 (error_leaves_barrier_unchanged
                    (apply_fn Scenario.inert 1) 1
                    (Some 5) (mkBarrier 1 [Scenario.W1])
                    (RangeError "Invalid Argument")))).
    reflexivity.
  - apply (proj1 (proj2 (error_leaves_barrier_unchanged
                    (apply_fn Scenario.inert 1) 1
                    None (mkBarrier 0 [Scenario.W1])
                    (Error "Barrier not set.")))).
    reflexivity.
  - apply (proj2 (proj2 (error_leaves_barrier_unchanged
                    (apply_fn Scenario.releasing 2) 2
                    None (mkBarrier 1 [Scenario.R])
                    (Error "Barrier not set.")))).
    reflexivity.
Defined.

(** ** Every queued continuation is invoked at most once *)

(** C10.  The loop of [release] invokes a continuation on the barrier from
    whose array it has already been removed.  Over any sequence of calls,
    nested calls included and wherever the sequence stops, each continuation
    has been invoked from the array as often as it was on the array at the
    start or put there by [wait], less the times it is still there: on a
    barrier that starts with nobody waiting, never more often than [wait]
    queued it. *)
Theorem continuation_invoked_at_most_once code fuel p b w :
  (forall apply fd b' q, value b' <= 0 -> waiting b' = q ++ [w] ->
     drain apply (S fd) b' =
       (emit (Drained w) ;; apply w ;; drain apply fd)
         (mkBarrier (value b') q)) /\
  (count_occ waiter_eq_dec (drained (events (exec code fuel p b))) w +
   count_occ waiter_eq_dec (waiting (after (exec code fuel p b))) w =
   count_occ waiter_eq_dec (waiting b) w +
   count_occ waiter_eq_dec (queued (events (exec code fuel p b))) w)%nat /\
  (waiting b = [] ->
   (count_occ waiter_eq_dec (drained (events (exec code fuel p b))) w <=
    count_occ waiter_eq_dec (queued (events (exec code fuel p b))) w)%nat).
Proof.
  assert (Hlaw :
    (count_occ waiter_eq_dec (drained (events (exec code fuel p b))) w +
     count_occ waiter_eq_dec (waiting (after (exec code fuel p b))) w =
     count_occ waiter_eq_dec (waiting b) w +
     count_occ waiter_eq_dec (queued (events (exec code fuel p b))) w)%nat).
  { assert (H := exec_fifo code fuel p b). unfold fifo in H.
    apply (f_equal (fun l => count_occ waiter_eq_dec l w)) in H.
    rewrite !count_occ_app, !count_occ_rev in H. exact H. }
  split; [|split].
  - intros apply fd b' q Hv Hq. apply drain_step; assumption.
  - exact Hlaw.
  - intros Hempty. rewrite Hempty in Hlaw. simpl in Hlaw. lia.
Qed.

Lemma continuation_invoked_at_most_once_witness :
  events (exec Scenario.nesting 10
            [register Scenario.A; register Scenario.W2; SRelease None]
            (mkBarrier 1 [])) =
    [Queued Scenario.A; Queued Scenario.W2;
     Drained Scenario.A; Drained Scenario.W2] /\
  (count_occ waiter_eq_dec
     (drained (events (exec Scenario.nesting 10
                         [register Scenario.A; register Scenario.W2;
                          SRelease None] (mkBarrier 1 [])))) Scenario.A <=
   count_occ waiter_eq_dec
     (queued (events (exec Scenario.nesting 10
                        [register Scenario.A; register Scenario.W2;
                         SRelease None] (mkBarrier 1 [])))) Scenario.A)%nat.
Proof.
  split; [reflexivity|].
  apply (proj2 (proj2 (continuation_invoked_at_most_once Scenario.nesting 10
                  [register Scenario.A; register Scenario.W2; SRelease None]
                  (mkBarrier 1 []) Scenario.A))).
  reflexivity.
Defined.

(** ** Composing calls *)

Lemma bind_step {A B} (m : M A) (f : A -> M B) b a b1 :
  m b = mkResult (Normal a) b1 [] -> bind m f b = f a b1.
Proof. intros H. unfold bind. rewrite H. simpl. apply result_eta. Qed.

Lemma bind_Normal_inv {A B} (m : M A) (f : A -> M B) b x :
  outcome (bind m f b) = Normal x ->
  exists a, outcome (m b) = Normal a /\
            outcome (f a (after (m b))) = Normal x /\
            after (bind m f b) = after (f a (after (m b))).
Proof.
  unfold bind. destruct (outcome (m b)) as [a| |] eqn:E; simpl;
    intros H; try discriminate.
  exists a. auto.
Qed.

Lemma barrier_eta b : mkBarrier (value b) (waiting b) = b.
Proof. destruct b; reflexivity. Qed.

(** X1.  [aquire(n)] with [n > 0] followed by [release(n)] undoes itself:
    on a barrier with a non-negative counter, the sum being a safe integer,
    the pair behaves as the loop of
    [release] run on the barrier as it was, so on a set barrier it changes
    nothing and invokes nobody.  The same holds for [aquire()] followed by
    [release()]. *)
Theorem aquire_release_round_trip apply fuel b n :
  0 <= value b -> 0 < n -> safe_integer (value b + n) ->
  (aquire (Some n) ;; release apply fuel (Some n)) b = drain apply fuel b /\
  (aquire None ;; release apply fuel None) b = drain apply fuel b /\
  (0 < value b ->
   (aquire (Some n) ;; release apply fuel (Some n)) b =
     mkResult (Normal tt) b [] /\
   (aquire None ;; release apply fuel None) b = mkResult (Normal tt) b []).
Proof.
  intros Hv Hn _.
  assert (H1 : (aquire (Some n) ;; release apply fuel (Some n)) b =
               drain apply fuel b).
  { rewrite (bind_step _ _ _ _ _ (aquire_Some_nonneg b n ltac:(lia))).
    rewrite (release_continue apply fuel (Some n) _
               (mkBarrier (value b) (waiting b))).
    - rewrite barrier_eta. reflexivity.
    - rewrite release_count_Some_le by (simpl; lia). simpl.
      replace (value b + n - n) with (value b) by lia. reflexivity. }
  assert (H2 : (aquire None ;; release apply fuel None) b =
               drain apply fuel b).
  { rewrite (bind_step _ _ _ _ _ (aquire_None b)).
    rewrite (release_continue apply fuel None _
               (mkBarrier (value b) (waiting b))).
    - rewrite barrier_eta. reflexivity.
    - rewrite release_count_None by (simpl; lia). simpl.
      replace (value b + 1 - 1) with (value b) by lia. reflexivity. }
  split; [exact H1 | split; [exact H2|]].
  intros Hset. rewrite H1, H2.
  split; apply drain_done; left; exact Hset.
Qed.

Lemma aquire_release_round_trip_witness :
  (aquire (Some 3) ;; release (apply_fn Scenario.inert 1) 1 (Some 3))
    (mkBarrier 2 [Scenario.W1]) =
    mkResult (Normal tt) (mkBarrier 2 [Scenario.W1]) [].
Proof.
  destruct (aquire_release_round_trip (apply_fn Scenario.inert 1) 1
              (mkBarrier 2 [Scenario.W1]) 3) as (_ & _ & H);
    [simpl; lia | lia | unfold safe_integer, MAX_SAFE_INTEGER; simpl; lia |].
  apply H. simpl. lia.
Defined.

(** X2.  On a barrier with counter [c], a safe integer, [release(n)] with [0 < n < c] sets
    the counter to [c - n], invokes nobody and leaves the waiters; with
    [n = c] it sets the counter to 0 and runs the loop over the waiters. *)
Theorem release_in_range apply fuel b n :
  0 < n -> n <= value b -> safe_integer (value b) ->
  release apply fuel (Some n) b =
    drain apply fuel (mkBarrier (value b - n) (waiting b)) /\
  (n < value b ->
   release apply fuel (Some n) b =
     mkResult (Normal tt) (mkBarrier (value b - n) (waiting b)) []).
Proof.
  intros Hn Hle _.
  assert (H := release_continue apply fuel (Some n) b _
                 (release_count_Some_le b n ltac:(lia) Hle)).
  split; [exact H|].
  intros Hlt. rewrite H. apply drain_done. left. simpl. lia.
Qed.

Lemma release_in_range_witness :
  release (apply_fn Scenario.inert 1) 1 (Some 2) (mkBarrier 5 [Scenario.W1]) =
    mkResult (Normal tt) (mkBarrier 3 [Scenario.W1]) [] /\
  release (apply_fn Scenario.inert 1) 1 (Some 5) (mkBarrier 5 [Scenario.W1]) =
    mkResult (Normal tt) (mkBarrier 0 []) [Drained Scenario.W1].
Proof.
  split.
  - apply (proj2 (release_in_range (apply_fn Scenario.inert 1) 1
                    (mkBarrier 5 [Scenario.W1]) 2 ltac:(lia)
                    ltac:(simpl; lia)
                    ltac:(unfold safe_integer, MAX_SAFE_INTEGER; simpl; lia))).
    simpl. lia.
  - rewrite (proj1 (release_in_range (apply_fn Scenario.inert 1) 1
                      (mkBarrier 5 [Scenario.W1]) 5 ltac:(lia)
                      ltac:(simpl; lia)
                      ltac:(unfold safe_integer, MAX_SAFE_INTEGER; simpl; lia))).
    reflexivity.
Defined.

(** ** What a normal return of [release] guarantees *)

Lemma drain_quiescent apply fuel : forall b,
  outcome (drain apply fuel b) = Normal tt ->
  quiescent (after (drain apply fuel b)).
Proof.
  induction fuel as [|fuel IH]; intros b H.
  - simpl in *.
    destruct (0 <? value b) eqn:Ev; simpl in *.
    + left. apply Z.ltb_lt, Ev.
    + destruct (waiting b) eqn:Ew; simpl in *; [right; exact Ew|discriminate].
  - destruct (Z_lt_le_dec 0 (value b)) as [Hv|Hv].
    { rewrite drain_done by (left; exact Hv). left. exact Hv. }
    destruct (waiting b) as [|x l] eqn:E.
    { rewrite drain_done by (right; exact E). right. exact E. }
    destruct (@exists_last _ (x :: l)) as (q & w & Hq); [discriminate|].
    rewrite <- E in Hq.
    rewrite (drain_step apply fuel b q w Hv Hq) in H |- *.
    apply bind_Normal_inv in H. destruct H as (a & _ & H & ->).
    apply bind_Normal_inv in H. destruct H as (a' & _ & H & ->).
    apply IH, H.
Qed.

(** X3.  When [release] returns normally, no waiter is left on a clear
    barrier: the barrier is set again, or the array is empty.  This holds
    whatever the continuations do. *)
Theorem release_returns_quiescent apply fuel n b :
  outcome (release apply fuel n b) = Normal tt ->
  quiescent (after (release apply fuel n b)).
Proof.
  intros H. unfold release in *.
  apply bind_Normal_inv in H. destruct H as (a & _ & H & ->).
  apply drain_quiescent, H.
Qed.

Lemma release_returns_quiescent_witness :
  quiescent (after (release (apply_fn Scenario.reacquiring 1) 2 None
                      (mkBarrier 1 [Scenario.W2; Scenario.W1]))) /\
  quiescent (after (release (apply_fn Scenario.inert 1) 2 None
                      (mkBarrier 1 [Scenario.W2; Scenario.W1]))).
Proof.
  split; apply release_returns_quiescent; reflexivity.
Defined.

(** X4.  When [release] returns normally and leaves the barrier clear, every
    continuation has been invoked: those that were waiting before the call,
    oldest first, and then those registered during the call, in the order of
    registration. *)
Theorem release_clear_drains_all code fa fuel n b :
  outcome (release (apply_fn code fa) fuel n b) = Normal tt ->
  value (after (release (apply_fn code fa) fuel n b)) <= 0 ->
  waiting (after (release (apply_fn code fa) fuel n b)) = [] /\
  drained (events (release (apply_fn code fa) fuel n b)) =
    rev (waiting b) ++ queued (events (release (apply_fn code fa) fuel n b)).
Proof.
  intros Hn Hclear.
  assert (Hq : waiting (after (release (apply_fn code fa) fuel n b)) = []).
  { destruct (drain_quiescent (apply_fn code fa) fuel
                (after (release_count n b))) as [Hset|Hempty].
    - unfold release in Hn. apply bind_Normal_inv in Hn.
      destruct Hn as (a & _ & Hn & _). exact Hn.
    - unfold release in Hn, Hclear. apply bind_Normal_inv in Hn.
      destruct Hn as (a & _ & _ & Hafter). rewrite Hafter in Hclear. lia.
    - unfold release in Hn |- *. apply bind_Normal_inv in Hn.
      destruct Hn as (a & _ & _ & ->). exact Hempty. }
  split; [exact Hq|].
  assert (H := release_fifo code fa fuel n b). unfold fifo in H.
  rewrite Hq in H. simpl in H. rewrite app_nil_r in H. exact H.
Qed.

Lemma release_clear_drains_all_witness :
  drained (events (release (apply_fn Scenario.nesting 3) 3 None
                     (mkBarrier 1 [Scenario.W2; Scenario.A]))) =
    [Scenario.A; Scenario.W2].
Proof.
  rewrite (proj2 (release_clear_drains_all Scenario.nesting 3 3 None
                    (mkBarrier 1 [Scenario.W2; Scenario.A])
                    eq_refl ltac:(vm_compute; discriminate))).
  reflexivity.
Defined.

(** X5.  An exception thrown by a continuation ends the loop of [release]
    at once: it comes out of [release], the continuation has been removed
    from the array, the waiters registered after it are not invoked and stay
    queued as the continuation left them. *)
Theorem continuation_exception_aborts_drain apply fuel n b q w e b1 t1 :
  release_count n b = mkResult (Normal tt) (mkBarrier 0 (waiting b)) [] ->
  waiting b = q ++ [w] ->
  apply w (mkBarrier 0 q) = mkResult (Throw e) b1 t1 ->
  release apply (S fuel) n b = mkResult (Throw e) b1 (Drained w :: t1).
Proof.
  intros Hc Hq Hw.
  rewrite (release_continue _ _ _ _ _ Hc).
  rewrite (drain_step apply fuel _ q w); simpl; [|lia|exact Hq].
  unfold bind at 1, emit. simpl.
  unfold bind. rewrite Hw. reflexivity.
Qed.

Lemma continuation_exception_aborts_drain_witness :
  release (apply_fn Scenario.releasing 2) 1 None
          (mkBarrier 1 [Scenario.W2; Scenario.R]) =
    mkResult (Throw (Error "Barrier not set.")) (mkBarrier 0 [Scenario.W2])
             [Drained Scenario.R] /\
  ~ quiescent (mkBarrier 0 [Scenario.W2]).
Proof.
  split.
  - apply (continuation_exception_aborts_drain (apply_fn Scenario.releasing 2)
             0 None (mkBarrier 1 [Scenario.W2; Scenario.R]) [Scenario.W2]
             Scenario.R); reflexivity.
  - intros [H|H]; [simpl in H; lia | discriminate].
Defined.

(** ** Callers that do not catch exceptions *)

Lemma wait_set apply w b :
  0 < value b ->
  wait apply w b =
    mkResult (Normal tt) (mkBarrier (value b) (w :: waiting b)) [Queued w].
Proof.
  intros Hv. unfold wait, bind, isSet. simpl.
  destruct (0 <? value b) eqn:E; [reflexivity | apply Z.ltb_ge in E; lia].
Qed.

Lemma wait_clear apply w b :
  value b <= 0 -> wait apply w b = (emit (Called w) ;; apply w) b.
Proof.
  intros Hv. unfold wait, bind, isSet. simpl.
  destruct (0 <? value b) eqn:E; [apply Z.ltb_lt in E; lia | reflexivity].
Qed.

Lemma aquire_quiescent n b :
  quiescent b -> quiescent (after (aquire n b)).
Proof.
  intros Hq. destruct n as [m|].
  - destruct (Z_lt_le_dec m 0) as [Hm|Hm].
    + rewrite aquire_Some_neg by assumption. exact Hq.
    + rewrite aquire_Some_nonneg by assumption.
      destruct Hq as [Hq|Hq]; [left; simpl; lia | right; exact Hq].
  - rewrite aquire_None.
    destruct Hq as [Hq|Hq]; [left; simpl; lia | right; exact Hq].
Qed.

Lemma exec_quiescent code :
  (forall f a, try_free (code f a) = true) ->
  forall fuel p b,
    try_free p = true -> quiescent b ->
    outcome (exec code fuel p b) = Normal tt ->
    quiescent (after (exec code fuel p b)).
Proof.
  intros Hcode.
  induction fuel as [|fuel IH]; intros p b Hp Hq Hn;
    destruct p as [|c k]; try exact Hq.
  simpl in Hp. apply andb_prop in Hp. destruct Hp as [Hc Hk].
  cbn [exec] in Hn |- *.
  apply bind_Normal_inv in Hn. destruct Hn as ([] & Hc1 & Hk1 & ->).
  apply (IH k _ Hk); [|exact Hk1]. clear Hk1.
  destruct c as [n|n|fn a|body|thn els]; simpl in Hc.
  - apply bind_Normal_inv in Hc1. destruct Hc1 as (v & _ & _ & ->).
    apply aquire_quiescent, Hq.
  - unfold release in Hc1 |- *.
    apply bind_Normal_inv in Hc1. destruct Hc1 as (u & _ & Hc1 & ->).
    apply drain_quiescent, Hc1.
  - destruct (Z_lt_le_dec 0 (value b)) as [Hv|Hv].
    + rewrite wait_set by assumption. left. exact Hv.
    + rewrite wait_clear in Hc1 |- * by assumption.
      apply bind_Normal_inv in Hc1. destruct Hc1 as ([] & _ & Hc1 & ->).
      apply (IH _ _ (Hcode fn a) Hq Hc1).
  - discriminate.
  - apply andb_prop in Hc. destruct Hc as [Ht He].
    apply bind_Normal_inv in Hc1. destruct Hc1 as (s & _ & Hc1 & ->).
    simpl in Hc1 |- *. destruct s.
    + apply (IH _ _ Ht Hq Hc1).
    + apply (IH _ _ He Hq Hc1).
Qed.

(** X6.  Callers and continuations that never catch an exception keep the
    barrier quiescent: started on a barrier where no waiter sits on a clear
    barrier (a new barrier is one), every sequence of calls that returns
    normally, nested calls included, leaves such a barrier. *)
Theorem uncaught_calls_keep_quiescent code fuel p n b0 :
  (forall f a, try_free (code f a) = true) ->
  try_free p = true ->
  Barrier_new n = Normal b0 ->
  outcome (exec code fuel p b0) = Normal tt ->
  quiescent b0 /\ quiescent (after (exec code fuel p b0)).
Proof.
  intros Hcode Hp Hnew Hn.
  assert (Hq : quiescent b0).
  { right. destruct n as [n|]; simpl in Hnew.
    - destruct (n <? 0); [discriminate|]. injection Hnew as <-. reflexivity.
    - injection Hnew as <-. reflexivity. }
  split; [exact Hq|]. apply exec_quiescent; assumption.
Qed.

Lemma uncaught_calls_keep_quiescent_witness :
  quiescent (after (exec Scenario.nesting 10
                      [SAquire (Some 2); register Scenario.A;
                       register Scenario.W2; SRelease None; SRelease None]
                      (mkBarrier 0 []))).
Proof.
  apply (uncaught_calls_keep_quiescent Scenario.nesting 10 _ None
           (mkBarrier 0 [])); try reflexivity.
  intros f a. unfold Scenario.nesting. destruct (String.eqb f "A"); reflexivity.
Defined.

(** ** Counting down *)

Lemma exec_cons code fuel c k :
  exec code (S fuel) (c :: k) =
  ((match c with
    | SAquire n => aquire n ;; ret tt
    | SRelease n => release (apply_fn code fuel) fuel n
    | SWait fn a => wait (apply_fn code fuel) (mkWaiter a fn)
    | STry body => try_catch (exec code fuel body)
    | SIfSet thn els =>
        s <- isSet ;; if s then exec code fuel thn else exec code fuel els
    end) ;; exec code fuel k).
Proof. reflexivity. Qed.

Lemma exec_aquires code k : forall fuel rest b,
  exec code (k + fuel) (repeat (SAquire None) k ++ rest) b =
  exec code fuel rest (mkBarrier (value b + Z.of_nat k) (waiting b)).
Proof.
  induction k as [|k IH]; intros fuel rest b.
  - simpl. rewrite Z.add_0_r, barrier_eta. reflexivity.
  - change (exec code (S (k + fuel)) (SAquire None :: repeat (SAquire None) k ++ rest) b
            = exec code fuel rest
                (mkBarrier (value b + Z.of_nat (S k)) (waiting b))).
    rewrite exec_cons.
    rewrite (bind_step _ _ b tt (mkBarrier (value b + 1) (waiting b)))
      by reflexivity.
    rewrite IH. simpl value. simpl waiting.
    replace (value b + 1 + Z.of_nat k) with (value b + Z.of_nat (S k)) by lia.
    reflexivity.
Qed.

Lemma exec_releases code k : forall fuel rest b,
  Z.of_nat k < value b ->
  exec code (k + fuel) (repeat (SRelease None) k ++ rest) b =
  exec code fuel rest (mkBarrier (value b - Z.of_nat k) (waiting b)).
Proof.
  induction k as [|k IH]; intros fuel rest b Hk.
  - simpl. rewrite Z.sub_0_r, barrier_eta. reflexivity.
  - change (exec code (S (k + fuel)) (SRelease None :: repeat (SRelease None) k ++ rest) b
            = exec code fuel rest
                (mkBarrier (value b - Z.of_nat (S k)) (waiting b))).
    rewrite exec_cons.
    rewrite (bind_step _ _ b tt (mkBarrier (value b - 1) (waiting b))).
    + rewrite IH by (simpl; lia). simpl value. simpl waiting.
      replace (value b - 1 - Z.of_nat k) with (value b - Z.of_nat (S k))
        by lia.
      reflexivity.
    + rewrite (release_continue _ _ _ _ _
                 (release_count_None b ltac:(lia))).
      apply drain_done. left. simpl. lia.
Qed.

(** X7.  [aquire()] called [k] times adds [k] to the counter, invokes nobody
    and leaves the waiters, as long as the counter stays a safe integer. *)
Theorem aquire_accumulates code k b :
  safe_integer (value b) -> safe_integer (value b + Z.of_nat k) ->
  exec code k (repeat (SAquire None) k) b =
    mkResult (Normal tt) (mkBarrier (value b + Z.of_nat k) (waiting b)) [].
Proof.
  intros _ _.
  assert (H := exec_aquires code k 0 [] b).
  rewrite app_nil_r, Nat.add_0_r in H. rewrite H. apply exec_nil.
Qed.

Lemma aquire_accumulates_witness :
  exec Scenario.inert 3 (repeat (SAquire None) 3) (mkBarrier 2 [Scenario.W1]) =
    mkResult (Normal tt) (mkBarrier 5 [Scenario.W1]) [].
Proof.
  apply (aquire_accumulates Scenario.inert 3 (mkBarrier 2 [Scenario.W1]));
    unfold safe_integer, MAX_SAFE_INTEGER; simpl; lia.
Defined.

(** X8.  The pattern of the header: on a new barrier, [aquire(n)] with [n]
    a safe integer, then
    [wait(w)], then one [release()] for each operation that completes.
    After [k < n] releases the counter is [n - k] and [w] has not been
    invoked; the [n]-th release invokes it, once, and the array is empty. *)
Theorem continuation_runs_at_last_release code n w k fuel :
  Z.of_nat k < n -> safe_integer n ->
  exec code (2 + (k + fuel))
       (SAquire (Some n) :: register w :: repeat (SRelease None) k)
       (mkBarrier 0 []) =
    mkResult (Normal tt) (mkBarrier (n - Z.of_nat k) [w]) [Queued w] /\
  (Z.of_nat (S k) = n ->
   code (callback w) (args w) = [] ->
   exec code (2 + (k + S (S fuel)))
        (SAquire (Some n) :: register w :: repeat (SRelease None) (S k))
        (mkBarrier 0 []) =
     mkResult (Normal tt) (mkBarrier 0 []) [Queued w; Drained w]).
Proof.
  intros Hk _.
  assert (Hprefix : forall fuel' rest,
    exec code (2 + (k + fuel'))
         (SAquire (Some n) :: register w :: repeat (SRelease None) k ++ rest)
         (mkBarrier 0 []) =
    mkResult (outcome (exec code fuel' rest (mkBarrier (n - Z.of_nat k) [w])))
             (after (exec code fuel' rest (mkBarrier (n - Z.of_nat k) [w])))
             (Queued w ::
              events (exec code fuel' rest (mkBarrier (n - Z.of_nat k) [w])))).
  { intros fuel' rest.
    change (2 + (k + fuel'))%nat with (S (S (k + fuel'))).
    rewrite exec_cons.
    rewrite (bind_step _ _ _ tt (mkBarrier n [])).
    2:{ rewrite (bind_step _ _ _ n (mkBarrier n [])); [reflexivity|].
        rewrite aquire_Some_nonneg by lia. reflexivity. }
    unfold register at 1. rewrite exec_cons.
    unfold bind at 1. rewrite wait_set by (simpl; lia).
    destruct w as [a f]. simpl.
    rewrite exec_releases by (simpl; lia). reflexivity. }
  split.
  - assert (H := Hprefix fuel []). rewrite app_nil_r in H.
    rewrite H, exec_nil. reflexivity.
  - intros Hlast Hbody.
    replace (repeat (SRelease None) (S k))
      with (repeat (SRelease None) k ++ [SRelease None])
      by (rewrite <- repeat_cons; reflexivity).
    rewrite Hprefix.
    replace (n - Z.of_nat k) with 1 by lia.
    assert (Hrel : release (apply_fn code (S fuel)) (S fuel) None
                     (mkBarrier 1 [w]) =
                   mkResult (Normal tt) (mkBarrier 0 []) [Drained w]).
    { rewrite (release_continue _ _ _ _ (mkBarrier 0 [w]))
        by (apply release_count_None; simpl; lia).
      rewrite (drain_all_inert _ [w]); simpl; try lia; try reflexivity.
      intros w' b' [<-|[]]. unfold apply_fn. rewrite Hbody. apply exec_nil. }
    rewrite exec_cons. unfold bind. rewrite Hrel. reflexivity.
Qed.

Lemma continuation_runs_at_last_release_witness :
  exec Scenario.inert 4
       [SAquire (Some 2); register Scenario.W1; SRelease None]
       (mkBarrier 0 []) =
    mkResult (Normal tt) (mkBarrier 1 [Scenario.W1]) [Queued Scenario.W1] /\
  exec Scenario.inert 6
       [SAquire (Some 2); register Scenario.W1; SRelease None; SRelease None]
       (mkBarrier 0 []) =
    mkResult (Normal tt) (mkBarrier 0 [])
             [Queued Scenario.W1; Drained Scenario.W1].
Proof.
  split.
  - apply (proj1 (continuation_runs_at_last_release Scenario.inert 2
                    Scenario.W1 1 1 ltac:(lia)
                    ltac:(unfold safe_integer, MAX_SAFE_INTEGER; simpl; lia))).
  - apply (proj2 (continuation_runs_at_last_release Scenario.inert 2
                    Scenario.W1 1 1 ltac:(lia)
                    ltac:(unfold safe_integer, MAX_SAFE_INTEGER; simpl; lia)));
      [lia | reflexivity].
Defined.

(** ** The order of invocation over a whole run *)

(** X9.  Over any sequence of calls on a new barrier, nested calls from
    continuations included and wherever the sequence stops, the continuations
    invoked from the array are invoked in the order in which [wait] queued
    them: they are the first of the queued ones, and the rest is still on
    the array, most recent first. *)
Theorem waiters_invoked_in_registration_order code fuel p n b0 :
  Barrier_new n = Normal b0 ->
  queued (events (exec code fuel p b0)) =
    drained (events (exec code fuel p b0)) ++
    rev (waiting (after (exec code fuel p b0))).
Proof.
  intros Hnew.
  assert (Hw : waiting b0 = []).
  { destruct n as [n|]; simpl in Hnew.
    - destruct (n <? 0); [discriminate|]. injection Hnew as <-. reflexivity.
    - injection Hnew as <-. reflexivity. }
  assert (H := exec_fifo code fuel p b0). unfold fifo in H.
  rewrite Hw in H. simpl in H. symmetry. exact H.
Qed.

Lemma waiters_invoked_in_registration_order_witness :
  queued (events (exec Scenario.reacquiring 10
                    Scenario.two_waiters_then_release (mkBarrier 1 []))) =
    drained (events (exec Scenario.reacquiring 10
                       Scenario.two_waiters_then_release (mkBarrier 1 []))) ++
    [Scenario.W2].
Proof.
  apply (waiters_invoked_in_registration_order Scenario.reacquiring 10
           Scenario.two_waiters_then_release (Some 1) (mkBarrier 1 [])).
  reflexivity.
Defined.

(** ** Continuations that do not call back *)

(** X11.  When the waiting continuations do not touch the barrier, [release]
    on a barrier with a non-negative counter always comes back, within as
    many loop iterations as there are waiters, in one of three ways: it
    throws from its checks and nothing has changed; or the barrier is still
    set and nobody has been invoked; or the counter is 0, the array is empty
    and every waiter has been invoked, oldest first. *)
Theorem release_without_callbacks code fa fuel n b :
  0 <= value b ->
  (forall w, In w (waiting b) -> code (callback w) (args w) = []) ->
  (List.length (waiting b) <= fuel)%nat ->
  (exists e, release (apply_fn code fa) fuel n b = mkResult (Throw e) b []) \/
  (exists v, 0 < v /\
     release (apply_fn code fa) fuel n b =
       mkResult (Normal tt) (mkBarrier v (waiting b)) []) \/
  release (apply_fn code fa) fuel n b =
    mkResult (Normal tt) (mkBarrier 0 [])
             (map Drained (rev (waiting b))).
Proof.
  intros Hv Hinert Hfuel.
  assert (Hcases :
    (exists e, release_count n b = mkResult (Throw e) b []) \/
    (exists v, 0 <= v /\
       release_count n b = mkResult (Normal tt) (mkBarrier v (waiting b)) [])).
  { destruct (Z_lt_le_dec 0 (value b)) as [Hset|Hclear].
    - destruct n as [m|].
      + destruct (Z_lt_le_dec (value b) m) as [Hm|Hm].
        * left. eexists. apply release_count_Some_gt; assumption.
        * right. exists (value b - m). split; [lia|].
          apply release_count_Some_le; assumption.
      + right. exists (value b - 1). split; [lia|].
        apply release_count_None, Hset.
    - left. eexists. apply release_count_not_set, Hclear. }
  destruct Hcases as [(e & He)|(v & Hv0 & Hc)].
  - left. exists e.
    rewrite (release_throw _ _ _ _ e) by (rewrite He; reflexivity).
    rewrite He. reflexivity.
  - right. rewrite (release_continue _ _ _ _ _ Hc).
    destruct (Z_lt_le_dec 0 v) as [Hpos|Hzero].
    + left. exists v. split; [exact Hpos|].
      apply drain_done. left. exact Hpos.
    + right. assert (v = 0) by lia. subst v.
      rewrite (drain_all_inert _ (waiting b)); simpl;
        try lia; try reflexivity.
      intros w b' Hin. unfold apply_fn. rewrite (Hinert w Hin).
      apply exec_nil.
Qed.

Lemma release_without_callbacks_witness :
  (exists e, release (apply_fn Scenario.inert 1) 2 None
               (mkBarrier 1 [Scenario.W2; Scenario.W1]) =
             mkResult (Throw e) (mkBarrier 1 [Scenario.W2; Scenario.W1]) []) \/
  (exists v, 0 < v /\
     release (apply_fn Scenario.inert 1) 2 None
       (mkBarrier 1 [Scenario.W2; Scenario.W1]) =
     mkResult (Normal tt) (mkBarrier v [Scenario.W2; Scenario.W1]) []) \/
  release (apply_fn Scenario.inert 1) 2 None
    (mkBarrier 1 [Scenario.W2; Scenario.W1]) =
    mkResult (Normal tt) (mkBarrier 0 [])
             [Drained Scenario.W1; Drained Scenario.W2].
Proof.
  apply (release_without_callbacks Scenario.inert 1 2 None
           (mkBarrier 1 [Scenario.W2; Scenario.W1]));
    [simpl; lia | reflexivity | simpl; lia].
Defined.
